(** * brkga_mp_ipr.types: enumerations and parameter records

    A shallow embedding of [brkga_mp_ipr/types.py]: the [ParsingEnum] base
    class with its case-insensitive [_missing_] hook, the five strategy
    enumerations built on it, the [PathRelinkingResult] flag, and the two
    parameter classes [BrkgaParams] and [ExternalControlParams].

    Python objects that the module handles are modelled as follows.
    - A [str] is the list of its Unicode code points.
    - An enumeration member is a constructor of [member]; its class, name
      and integer value are read off by [cls_of], [name] and [value].
    - An instance of a parameter class is its attribute dictionary, a
      [gmap] from attribute names to values.
    - A call that can raise returns a [result]: [Ok v] or [Raise e]. *)

From Stdlib Require Import ZArith NArith Ascii String List Floats.SpecFloat.
From stdpp Require Import base option list gmap strings fin_maps pretty.

Local Open Scope Z_scope.

(** ** Exceptions *)

(** The built-in exception classes that play a role in this module. *)
Inductive exn : Type :=
  | BaseException
  | Exception
  | LookupError
  | IndexError
  | KeyError
  | ValueError
  | TypeError
  | NameError
  | AttributeError.

#[global] Instance exn_eq_dec : EqDecision exn.
Proof. solve_decision. Defined.

(** The method resolution order of each class, most specific first. *)
Definition mro (e : exn) : list exn :=
  match e with
  | BaseException => [BaseException]
  | Exception => [Exception; BaseException]
  | LookupError => [LookupError; Exception; BaseException]
  | IndexError => [IndexError; LookupError; Exception; BaseException]
  | KeyError => [KeyError; LookupError; Exception; BaseException]
  | ValueError => [ValueError; Exception; BaseException]
  | TypeError => [TypeError; Exception; BaseException]
  | NameError => [NameError; Exception; BaseException]
  | AttributeError => [AttributeError; Exception; BaseException]
  end.

(** [issubclass e c]: an [except c] clause catches a raised [e]. *)
Definition issubclass (e c : exn) : bool := bool_decide (c ∈ mro e).

(** The outcome of a call: a returned value or a raised exception. *)
Inductive result (A : Type) : Type :=
  | Ok (a : A)
  | Raise (e : exn).
Arguments Ok {A} a.
Arguments Raise {A} e.

#[global] Instance result_ret : MRet result := λ A a, Ok a.
#[global] Instance result_bind : MBind result := λ A B f r,
  match r with
  | Ok a => f a
  | Raise e => Raise e
  end.

(** ** Strings *)

(** A Python [str] is a sequence of Unicode code points. *)
Definition str : Type := list N.

(** The [str] written by an ASCII literal of the source. *)
Definition lit (s : string) : str := N_of_ascii <$> list_ascii_of_string s.

(** Upper- and lower-casing of one code point of the ASCII range. *)
Definition ascii_upper (c : N) : N :=
  if ((97 <=? c) && (c <=? 122))%N then (c - 32)%N else c.

Definition ascii_lower (c : N) : N :=
  if ((65 <=? c) && (c <=? 90))%N then (c + 32)%N else c.

(** [t] is [n] with the case of some of its ASCII letters changed: the
    two strings have the same length and each code point of [t] is the
    upper-case or the lower-case form of the one of [n] at that place. *)
Definition same_letter (a b : N) : Prop :=
  b = ascii_upper a ∨ b = ascii_lower a.

Definition casing_of (n t : str) : Prop := Forall2 same_letter n t.

(** ** The enumerations *)

(** The classes deriving from [ParsingEnum]. *)
Inductive enum_cls : Type :=
  | Sense
  | BiasFunction
  | PathRelinkingType
  | PathRelinkingSelection
  | ShakingType.

#[global] Instance enum_cls_eq_dec : EqDecision enum_cls.
Proof. solve_decision. Defined.

(** Their members, in definition order. *)
Inductive member : Type :=
  | MINIMIZE | MAXIMIZE
  | CONSTANT | CUBIC | EXPONENTIAL | LINEAR | LOGINVERSE | QUADRATIC | CUSTOM
  | DIRECT | PERMUTATION
  | BESTSOLUTION | RANDOMELITE
  | CHANGE | SWAP.

#[global] Instance member_eq_dec : EqDecision member.
Proof. solve_decision. Defined.

(** [type(m)] *)
Definition cls_of (m : member) : enum_cls :=
  match m with
  | MINIMIZE | MAXIMIZE => Sense
  | CONSTANT | CUBIC | EXPONENTIAL | LINEAR | LOGINVERSE | QUADRATIC
  | CUSTOM => BiasFunction
  | DIRECT | PERMUTATION => PathRelinkingType
  | BESTSOLUTION | RANDOMELITE => PathRelinkingSelection
  | CHANGE | SWAP => ShakingType
  end.

(** [m.name] *)
Definition name (m : member) : str :=
  match m with
  | MINIMIZE => lit "MINIMIZE"
  | MAXIMIZE => lit "MAXIMIZE"
  | CONSTANT => lit "CONSTANT"
  | CUBIC => lit "CUBIC"
  | EXPONENTIAL => lit "EXPONENTIAL"
  | LINEAR => lit "LINEAR"
  | LOGINVERSE => lit "LOGINVERSE"
  | QUADRATIC => lit "QUADRATIC"
  | CUSTOM => lit "CUSTOM"
  | DIRECT => lit "DIRECT"
  | PERMUTATION => lit "PERMUTATION"
  | BESTSOLUTION => lit "BESTSOLUTION"
  | RANDOMELITE => lit "RANDOMELITE"
  | CHANGE => lit "CHANGE"
  | SWAP => lit "SWAP"
  end.

(** [m.value] *)
Definition value (m : member) : Z :=
  match m with
  | MINIMIZE => 0
  | MAXIMIZE => 1
  | CONSTANT => 0
  | CUBIC => 1
  | EXPONENTIAL => 2
  | LINEAR => 3
  | LOGINVERSE => 4
  | QUADRATIC => 5
  | CUSTOM => 6
  | DIRECT => 0
  | PERMUTATION => 1
  | BESTSOLUTION => 0
  | RANDOMELITE => 1
  | CHANGE => 0
  | SWAP => 1
  end.

(** [list(cls)]: the members of a class in definition order, the order in
    which [for member in cls] visits them. *)
Definition members (cls : enum_cls) : list member :=
  match cls with
  | Sense => [MINIMIZE; MAXIMIZE]
  | BiasFunction =>
      [CONSTANT; CUBIC; EXPONENTIAL; LINEAR; LOGINVERSE; QUADRATIC; CUSTOM]
  | PathRelinkingType => [DIRECT; PERMUTATION]
  | PathRelinkingSelection => [BESTSOLUTION; RANDOMELITE]
  | ShakingType => [CHANGE; SWAP]
  end.

(** [ParsingEnum.__str__]: just the name. *)
Definition __str__ (self : member) : str := name self.

(** The objects handed to an enumeration class as [cls(token)]: a member
    of one of the classes above, a string, or an integer. *)
Inductive token : Type :=
  | TMember (m : member)
  | TStr (s : str)
  | TInt (z : Z).

(** [str(x)] for a token: a string is itself, a member goes through
    [__str__], an integer is written in decimal. *)
Definition py_str (x : token) : str :=
  match x with
  | TMember m => __str__ m
  | TStr s => s
  | TInt z => lit (pretty z)
  end.

Section Resolution.

(** [str.upper] on a code point outside the ASCII range follows the
    Unicode character database, which is not part of this module; it may
    map one code point to several. *)
Variable unicode_upper : N → list N.

Definition upper_cp (c : N) : list N :=
  if (c <? 128)%N then [ascii_upper c] else unicode_upper c.

(** [s.upper()] *)
Definition upper (s : str) : str := c ← s; upper_cp c.

(** [ParsingEnum._missing_]: the first member whose upper-cased name is
    the upper-cased [str(name)]; [None] when the loop falls through. *)
Definition _missing_ (cls : enum_cls) (name_ : token) : option member :=
  List.find
    (λ member, bool_decide (upper (name member) = upper (py_str name_)))
    (members cls).

(** [cls._value2member_map_[value]]: the member carrying that value.
    The map is keyed by the integer values, so a string or a member never
    hits it. *)
Definition value2member (cls : enum_cls) (v : token) : option member :=
  match v with
  | TInt z =>
      List.find (λ member, bool_decide (value member = z)) (members cls)
  | TStr _ | TMember _ => None
  end.

(** [type(v) is cls]: the token is already a member of [cls]. *)
Definition as_instance (cls : enum_cls) (v : token) : option member :=
  match v with
  | TMember m => if decide (cls_of m = cls) then Some m else None
  | TStr _ | TInt _ => None
  end.

(** [cls(token)], that is [Enum.__new__(cls, token)] of the standard
    library: a member of [cls] is returned as it is; otherwise the value
    is looked up; otherwise the [_missing_] hook is asked. A hook result
    that is a member of [cls] is returned; [None] makes the call fail
    with [ValueError], anything else with [TypeError]. *)
Definition resolve (cls : enum_cls) (v : token) : result member :=
  match as_instance cls v with
  | Some m => Ok m
  | None =>
      match value2member cls v with
      | Some m => Ok m
      | None =>
          match _missing_ cls v with
          | Some r =>
              if decide (cls_of r = cls) then Ok r else Raise TypeError
          | None => Raise ValueError
          end
      end
  end.

End Resolution.

(** A casing table under which no code point outside ASCII has case. On a
    string of ASCII code points [upper] does not consult the table. *)
Definition caseless : N → list N := λ c, [c].

(** ** The path-relinking outcome flag *)

(** [PathRelinkingResult] derives from [Flag], not from [ParsingEnum]. *)
Inductive PathRelinkingResult : Type :=
  | TOO_HOMOGENEOUS
  | NO_IMPROVEMENT
  | ELITE_IMPROVEMENT
  | BEST_IMPROVEMENT.

#[global] Instance PathRelinkingResult_eq_dec : EqDecision PathRelinkingResult.
Proof. solve_decision. Defined.

(** [f.value] *)
Definition flag_value (f : PathRelinkingResult) : Z :=
  match f with
  | TOO_HOMOGENEOUS => 0
  | NO_IMPROVEMENT => 1
  | ELITE_IMPROVEMENT => 3
  | BEST_IMPROVEMENT => 7
  end.

(** The named constants, in definition order. *)
Definition flags : list PathRelinkingResult :=
  [TOO_HOMOGENEOUS; NO_IMPROVEMENT; ELITE_IMPROVEMENT; BEST_IMPROVEMENT].

(** [PathRelinkingResult(v)] for an integer [v]: the named constant with
    that value. [None] stands for every bit pattern that is not one of the
    four constants. *)
Definition flag_of_value (v : Z) : option PathRelinkingResult :=
  List.find (λ f, bool_decide (flag_value f = v)) flags.

(** [a | b], that is [Flag.__or__]: the class called on the bitwise or of
    the two values. *)
Definition combine (a b : PathRelinkingResult) : option PathRelinkingResult :=
  flag_of_value (Z.lor (flag_value a) (flag_value b)).

(** The order TOO_HOMOGENEOUS < NO_IMPROVEMENT < ELITE_IMPROVEMENT <
    BEST_IMPROVEMENT in which the docstring lists the outcomes, as a rank. *)
Definition strength (f : PathRelinkingResult) : nat :=
  match f with
  | TOO_HOMOGENEOUS => 0
  | NO_IMPROVEMENT => 1
  | ELITE_IMPROVEMENT => 2
  | BEST_IMPROVEMENT => 3
  end.

(** Every bit set in [a] is set in [b]. *)
Definition bits_subset (a b : Z) : bool := Z.land a b =? a.

(** The maximum of two outcomes under that order. *)
Definition stronger (a b : PathRelinkingResult) : PathRelinkingResult :=
  if (strength a <=? strength b)%nat then b else a.

(** ** The parameter classes *)

(** The values stored in the fields: integers, floats (IEEE 754 binary64
    data, of which only the literal [0.0] occurs) and enumeration members. *)
Inductive pyval : Type :=
  | PyInt (z : Z)
  | PyFloat (f : spec_float)
  | PyEnum (m : member).

(** The float literal [0.0]. *)
Definition float_zero : spec_float := S754_zero false.

(** An instance is its [__dict__]; a frame is its local variables. *)
Abbreviation object := (gmap string pyval).
Abbreviation frame := (gmap string pyval).

(** [self.attr = v] *)
Definition setattr (attr : string) (v : pyval) (self : object) : object :=
  <[attr := v]> self.

(** [self.attr] *)
Definition getattr (self : object) (attr : string) : result pyval :=
  match self !! attr with
  | Some v => Ok v
  | None => Raise AttributeError
  end.

(** Reading a local variable. *)
Definition load (locals : frame) (x : string) : result pyval :=
  match locals !! x with
  | Some v => Ok v
  | None => Raise NameError
  end.

(** *** Binding the arguments of a call

    A signature lists the parameters after [self], each with its default
    (every parameter of this module has one). A call passes positional
    arguments and keyword arguments. *)

Abbreviation signature := (list (string * pyval)).

(** Positional arguments fill the parameters from the left; more
    arguments than parameters is a [TypeError]. *)
Fixpoint bind_positional (sig : signature) (args : list pyval)
    (locals : frame) : result frame :=
  match args, sig with
  | [], _ => Ok locals
  | _ :: _, [] => Raise TypeError
  | a :: args, (p, _) :: sig => bind_positional sig args (<[p := a]> locals)
  end.

(** A keyword argument must name a parameter that has no value yet; an
    unknown keyword and a second value for a parameter are [TypeError]s. *)
Fixpoint bind_keywords (sig : signature) (kwargs : list (string * pyval))
    (locals : frame) : result frame :=
  match kwargs with
  | [] => Ok locals
  | (k, v) :: kwargs =>
      if bool_decide (k ∈ sig.*1) then
        match locals !! k with
        | Some _ => Raise TypeError
        | None => bind_keywords sig kwargs (<[k := v]> locals)
        end
      else Raise TypeError
  end.

(** Parameters still without a value take their defaults. *)
Fixpoint bind_defaults (sig : signature) (locals : frame) : frame :=
  match sig with
  | [] => locals
  | (p, d) :: sig =>
      bind_defaults sig
        (match locals !! p with
         | Some _ => locals
         | None => <[p := d]> locals
         end)
  end.

Definition bind (sig : signature) (args : list pyval)
    (kwargs : list (string * pyval)) : result frame :=
  locals ← bind_positional sig args ∅;
  locals ← bind_keywords sig kwargs locals;
  mret (bind_defaults sig locals).

(** *** BrkgaParams *)

(** [def __init__(self)] *)
Definition BrkgaParams_signature : signature := [].

(** A call of the class [BrkgaParams] with positional arguments [args]
    and keyword arguments [kwargs]: a fresh instance initialised by
    [__init__]. *)
Definition BrkgaParams (args : list pyval) (kwargs : list (string * pyval))
    : result object :=
  _ ← bind BrkgaParams_signature args kwargs;
  let self : object := ∅ in
  let self := setattr "population_size" (PyInt 0) self in
  let self := setattr "elite_percentage" (PyFloat float_zero) self in
  let self := setattr "mutants_percentage" (PyFloat float_zero) self in
  let self := setattr "num_elite_parents" (PyInt 0) self in
  let self := setattr "total_parents" (PyInt 0) self in
  let self := setattr "bias_type" (PyEnum CONSTANT) self in
  let self := setattr "num_independent_populations" (PyInt 0) self in
  let self := setattr "pr_number_pairs" (PyInt 0) self in
  let self := setattr "pr_minimum_distance" (PyFloat float_zero) self in
  let self := setattr "pr_type" (PyEnum DIRECT) self in
  let self := setattr "pr_selection" (PyEnum BESTSOLUTION) self in
  let self := setattr "alpha_block_size" (PyFloat float_zero) self in
  let self := setattr "pr_percentage" (PyFloat float_zero) self in
  mret self.

(** *** ExternalControlParams *)

(** [def __init__(self, exchange_interval: int = 0,
                  num_exchange_indivuduals: int = 0,
                  reset_interval: int = 0)] *)
Definition ExternalControlParams_signature : signature :=
  [("exchange_interval", PyInt 0);
   ("num_exchange_indivuduals", PyInt 0);
   ("reset_interval", PyInt 0)].

(** A call of the class [ExternalControlParams] with positional arguments
    [args] and keyword arguments [kwargs]. *)
Definition ExternalControlParams (args : list pyval)
    (kwargs : list (string * pyval)) : result object :=
  locals ← bind ExternalControlParams_signature args kwargs;
  let self : object := ∅ in
  exchange_interval ← load locals "exchange_interval";
  let self := setattr "exchange_interval" exchange_interval self in
  num_exchange_indivuduals ← load locals "num_exchange_indivuduals";
  let self := setattr "num_exchange_indivuduals" num_exchange_indivuduals self in
  reset_interval ← load locals "reset_interval";
  let self := setattr "reset_interval" reset_interval self in
  mret self.

(** * Properties *)

(** ** Strings and casing *)

Lemma ascii_upper_idemp c : ascii_upper (ascii_upper c) = ascii_upper c.
Proof.
  unfold ascii_upper.
  destruct (97 <=? c)%N eqn:H1, (c <=? 122)%N eqn:H2; simpl;
    rewrite ?H1, ?H2; simpl; try done.
  apply N.leb_le in H1, H2.
  destruct (97 <=? c - 32)%N eqn:H3; simpl; [|done].
  apply N.leb_le in H3. lia.
Qed.

Lemma ascii_upper_lower c : ascii_upper (ascii_lower c) = ascii_upper c.
Proof.
  unfold ascii_upper, ascii_lower.
  destruct (65 <=? c)%N eqn:H1, (c <=? 90)%N eqn:H2; simpl; try done.
  apply N.leb_le in H1, H2.
  assert ((97 <=? c + 32)%N = true) as -> by (apply N.leb_le; lia).
  assert ((c + 32 <=? 122)%N = true) as -> by (apply N.leb_le; lia).
  assert ((97 <=? c)%N = false) as -> by (apply N.leb_gt; lia).
  simpl. lia.
Qed.

Lemma ascii_upper_range c : (c < 128)%N → (ascii_upper c < 128)%N.
Proof.
  unfold ascii_upper. intros Hc.
  destruct (97 <=? c)%N eqn:H1, (c <=? 122)%N eqn:H2; simpl; lia.
Qed.

Lemma ascii_lower_range c : (c < 128)%N → (ascii_lower c < 128)%N.
Proof.
  unfold ascii_lower. intros Hc.
  destruct (65 <=? c)%N eqn:H1, (c <=? 90)%N eqn:H2; simpl; try lia.
  apply N.leb_le in H2. lia.
Qed.

Lemma same_letter_refl c : same_letter c c.
Proof.
  unfold same_letter, ascii_upper, ascii_lower.
  destruct (97 <=? c)%N eqn:H1, (c <=? 122)%N eqn:H2; simpl; auto.
  apply N.leb_le in H1, H2. right.
  assert ((65 <=? c)%N = true) as -> by (apply N.leb_le; lia).
  assert ((c <=? 90)%N = false) as -> by (apply N.leb_gt; lia).
  done.
Qed.

Lemma casing_of_refl s : casing_of s s.
Proof. induction s; constructor; auto using same_letter_refl. Qed.

Lemma casing_of_lower s : casing_of s (ascii_lower <$> s).
Proof. induction s; constructor; [right|]; done. Qed.

Lemma casing_of_upper s : casing_of s (ascii_upper <$> s).
Proof. induction s; constructor; [left|]; done. Qed.

(** Every member name is made of ASCII code points. *)
Lemma name_ascii m : Forall (λ c, (c < 128)%N) (name m).
Proof. destruct m; repeat constructor. Qed.

Lemma elem_of_members cls m : m ∈ members cls ↔ cls_of m = cls.
Proof.
  rewrite <-(bool_decide_spec (m ∈ members cls)).
  rewrite <-(bool_decide_spec (cls_of m = cls)).
  destruct cls, m; vm_compute; tauto.
Qed.

Lemma find_all_false {A} (f : A → bool) (l : list A) :
  (∀ x, x ∈ l → f x = false) → List.find f l = None.
Proof.
  induction l as [|a l IH]; intros H; [done|].
  cbn. rewrite (H a) by left. apply IH. intros x Hx. apply H. by right.
Qed.

(** ** Resolution of tokens *)

Section ResolutionFacts.

Variable unicode_upper : N → list N.

Lemma upper_cp_casing a b :
  (a < 128)%N → same_letter a b →
  upper_cp unicode_upper b = upper_cp unicode_upper a.
Proof.
  intros Ha Hab. unfold upper_cp.
  apply N.ltb_lt in Ha as Ha'. rewrite Ha'.
  destruct Hab as [-> | ->].
  - apply ascii_upper_range, N.ltb_lt in Ha as ->.
    by rewrite ascii_upper_idemp.
  - apply ascii_lower_range, N.ltb_lt in Ha as ->.
    by rewrite ascii_upper_lower.
Qed.

(** Changing the case of ASCII letters does not change [upper]. *)
Lemma upper_casing n t :
  Forall (λ c, (c < 128)%N) n → casing_of n t →
  upper unicode_upper t = upper unicode_upper n.
Proof.
  intros Hn Hc. induction Hc as [|a b n t Hab Hc IH]; [done|].
  apply Forall_cons in Hn as [Ha Hn].
  unfold upper in *. cbn. rewrite (upper_cp_casing a b Ha Hab).
  f_equal. by apply IH.
Qed.

(** The hook looks at its argument only through [str(name).upper()]. *)
Lemma missing_upper cls a b :
  upper unicode_upper (py_str a) = upper unicode_upper (py_str b) →
  _missing_ unicode_upper cls a = _missing_ unicode_upper cls b.
Proof. intros H. unfold _missing_. by rewrite H. Qed.

(** The loop stops at the member whose name it is given. *)
Lemma missing_name m :
  _missing_ unicode_upper (cls_of m) (TStr (name m)) = Some m.
Proof. by destruct m. Qed.

(** A string is never an instance of the class nor one of its values: the
    outcome of the call is decided by the hook. *)
Lemma resolve_str cls s :
  resolve unicode_upper cls (TStr s) =
    match _missing_ unicode_upper cls (TStr s) with
    | Some r => if decide (cls_of r = cls) then Ok r else Raise TypeError
    | None => Raise ValueError
    end.
Proof. done. Qed.

Lemma resolve_name m :
  resolve unicode_upper (cls_of m) (TStr (name m)) = Ok m.
Proof. rewrite resolve_str, missing_name. by rewrite decide_True. Qed.

(** C1, amended: for every strategy enumeration and every string whose
    upper-cased form is the upper-cased name of no variant, the call fails
    with [ValueError], which is not a [LookupError]; the failure is the
    outcome of the call, it is neither swallowed nor replaced by a
    variant. *)
Theorem resolve_unknown_name_ValueError cls s :
  (∀ m, m ∈ members cls →
        upper unicode_upper (name m) ≠ upper unicode_upper s) →
  resolve unicode_upper cls (TStr s) = Raise ValueError
  ∧ issubclass ValueError LookupError = false.
Proof.
  intros Hno. split; [|done].
  rewrite resolve_str. unfold _missing_.
  rewrite find_all_false; [done|].
  intros m Hm. apply bool_decide_eq_false. cbn. by apply Hno.
Qed.

(** C5: for every strategy enumeration, every variant name [n] and every
    string [t] obtained from [n] by changing the case of letters
    (upper-case, lower-case or mixed), resolving [t] gives what resolving
    [n] gives, namely that variant. *)
Theorem resolve_case_insensitive cls m t :
  m ∈ members cls → casing_of (name m) t →
  resolve unicode_upper cls (TStr t) = resolve unicode_upper cls (TStr (name m))
  ∧ resolve unicode_upper cls (TStr t) = Ok m.
Proof.
  intros Hm Hc. apply elem_of_members in Hm as <-.
  assert (resolve unicode_upper (cls_of m) (TStr t) = Ok m) as Ht.
  { rewrite resolve_str.
    rewrite (missing_upper _ (TStr t) (TStr (name m))).
    - rewrite missing_name. by rewrite decide_True.
    - cbn. apply upper_casing; [apply name_ascii|done]. }
  by rewrite Ht, resolve_name.
Qed.

(** C8: for every strategy enumeration and every variant [v] of it,
    resolving [v] itself returns [v], and resolving the string that
    [__str__] writes for [v] returns [v]. *)
Theorem resolve_member_roundtrip cls v :
  v ∈ members cls →
  resolve unicode_upper cls (TMember v) = Ok v
  ∧ resolve unicode_upper cls (TStr (__str__ v)) = Ok v.
Proof.
  intros Hv. apply elem_of_members in Hv as <-. split.
  - unfold resolve, as_instance. by rewrite decide_True.
  - apply resolve_name.
Qed.

(** C10: for every strategy enumeration and every integer [t] that is
    the value of one of its variants, the value lookup finds that variant
    and resolving [t] returns it without consulting the hook. *)
Theorem resolve_by_value cls v t :
  v ∈ members cls → value v = t →
  value2member cls (TInt t) = Some v
  ∧ resolve unicode_upper cls (TInt t) = Ok v.
Proof.
  intros Hv <-. apply elem_of_members in Hv as <-.
  assert (value2member (cls_of v) (TInt (value v)) = Some v) as Hl
    by by destruct v.
  split; [done|]. unfold resolve. cbn [as_instance]. by rewrite Hl.
Qed.

End ResolutionFacts.

(** ** The outcome flag *)

(** C6: the four constants carry the values 0, 1, 3 and 7, and the bits of
    each level are among the bits of the next. *)
Theorem PathRelinkingResult_values :
  flag_value TOO_HOMOGENEOUS = 0
  ∧ flag_value NO_IMPROVEMENT = 1
  ∧ flag_value ELITE_IMPROVEMENT = 3
  ∧ flag_value BEST_IMPROVEMENT = 7
  ∧ bits_subset (flag_value TOO_HOMOGENEOUS) (flag_value NO_IMPROVEMENT) = true
  ∧ bits_subset (flag_value NO_IMPROVEMENT) (flag_value ELITE_IMPROVEMENT) = true
  ∧ bits_subset (flag_value ELITE_IMPROVEMENT) (flag_value BEST_IMPROVEMENT) = true.
Proof. repeat split. Qed.

(** C2: for all 16 ordered pairs of outcomes, [a | b] is the stronger of
    the two under TOO_HOMOGENEOUS < NO_IMPROVEMENT < ELITE_IMPROVEMENT <
    BEST_IMPROVEMENT. *)
Theorem combine_is_stronger (a b : PathRelinkingResult) :
  combine a b = Some (stronger a b).
Proof. by destruct a, b. Qed.

(** C9: within each of the six enumerations the integer values of the
    variants are pairwise distinct. *)
Theorem values_distinct :
  (∀ cls, NoDup (value <$> members cls))
  ∧ NoDup (flag_value <$> flags).
Proof.
  split; [intros cls; destruct cls|]; by apply (bool_decide_unpack _).
Qed.

(** ** The parameter classes *)

(** C7: [BrkgaParams()] succeeds, and in the instance every numeric field
    is [0] or [0.0], [bias_type] is [CONSTANT], [pr_type] is [DIRECT] and
    [pr_selection] is [BESTSOLUTION]. *)
Theorem BrkgaParams_default :
  ∃ self, BrkgaParams [] [] = Ok self
    ∧ getattr self "population_size" = Ok (PyInt 0)
    ∧ getattr self "elite_percentage" = Ok (PyFloat float_zero)
    ∧ getattr self "mutants_percentage" = Ok (PyFloat float_zero)
    ∧ getattr self "num_elite_parents" = Ok (PyInt 0)
    ∧ getattr self "total_parents" = Ok (PyInt 0)
    ∧ getattr self "bias_type" = Ok (PyEnum CONSTANT)
    ∧ getattr self "num_independent_populations" = Ok (PyInt 0)
    ∧ getattr self "pr_number_pairs" = Ok (PyInt 0)
    ∧ getattr self "pr_minimum_distance" = Ok (PyFloat float_zero)
    ∧ getattr self "pr_type" = Ok (PyEnum DIRECT)
    ∧ getattr self "pr_selection" = Ok (PyEnum BESTSOLUTION)
    ∧ getattr self "alpha_block_size" = Ok (PyFloat float_zero)
    ∧ getattr self "pr_percentage" = Ok (PyFloat float_zero).
Proof. eexists. split; [reflexivity|]. repeat split. Qed.

(** C3, amended: [ExternalControlParams(10, 20, 30)] has the fields
    [exchange_interval = 10], [num_exchange_indivuduals = 20] and
    [reset_interval = 30]; the call with the keywords
    [exchange_interval=30], [num_exchange_indivuduals=10] and
    [reset_interval=20] has the fields 30, 10 and 20; and a positional call
    builds the same instance as the call naming the same values. The second
    parameter and field are spelled [num_exchange_indivuduals]. *)
Theorem ExternalControlParams_positional_named :
  (∃ self, ExternalControlParams [PyInt 10; PyInt 20; PyInt 30] [] = Ok self
     ∧ getattr self "exchange_interval" = Ok (PyInt 10)
     ∧ getattr self "num_exchange_indivuduals" = Ok (PyInt 20)
     ∧ getattr self "reset_interval" = Ok (PyInt 30))
  ∧ (∃ self, ExternalControlParams []
               [("exchange_interval", PyInt 30);
                ("num_exchange_indivuduals", PyInt 10);
                ("reset_interval", PyInt 20)] = Ok self
     ∧ getattr self "exchange_interval" = Ok (PyInt 30)
     ∧ getattr self "num_exchange_indivuduals" = Ok (PyInt 10)
     ∧ getattr self "reset_interval" = Ok (PyInt 20))
  ∧ (∀ a b c,
       ExternalControlParams [a; b; c] [] =
       ExternalControlParams []
         [("exchange_interval", a);
          ("num_exchange_indivuduals", b);
          ("reset_interval", c)]).
Proof.
  split; [|split].
  - eexists. split; [reflexivity|]. repeat split.
  - eexists. split; [reflexivity|]. repeat split.
  - intros a b c. reflexivity.
Qed.

(** *** Argument binding *)

Section Binding.

Implicit Types (sig : signature) (args : list pyval).
Implicit Types (kwargs : list (string * pyval)) (locals : frame).

Lemma zip_fst_elem_of sig args p : p ∈ (zip sig.*1 args).*1 → p ∈ sig.*1.
Proof.
  intros ([q a] & -> & Hin)%list_elem_of_fmap. by apply elem_of_zip_l in Hin.
Qed.

Lemma bind_positional_ok sig args locals :
  NoDup sig.*1 → (length args ≤ length sig)%nat →
  bind_positional sig args locals
  = Ok (list_to_map (zip sig.*1 args) ∪ locals).
Proof.
  revert sig locals.
  induction args as [|a args IH]; intros sig locals Hnd Hlen.
  - destruct sig as [|[p d] sig]; cbn; by rewrite (left_id_L ∅ (∪)).
  - destruct sig as [|[p d] sig]; cbn in *; [lia|].
    apply NoDup_cons in Hnd as [Hp Hnd].
    rewrite IH by (done || lia). f_equal.
    rewrite <-insert_union_l, <-insert_union_r; [done|].
    apply not_elem_of_list_to_map_1. intros Hin. by apply zip_fst_elem_of in Hin.
Qed.

Lemma bind_keywords_ok sig kwargs locals :
  NoDup kwargs.*1 →
  (∀ k, k ∈ kwargs.*1 → k ∈ sig.*1 ∧ locals !! k = None) →
  bind_keywords sig kwargs locals = Ok (list_to_map kwargs ∪ locals).
Proof.
  revert locals.
  induction kwargs as [|[k v] kwargs IH]; intros locals Hnd Hk.
  - cbn. by rewrite (left_id_L ∅ (∪)).
  - cbn in *. apply NoDup_cons in Hnd as [Hk' Hnd].
    destruct (Hk k) as [Hin Hfree]; [by left|].
    rewrite bool_decide_eq_true_2, Hfree by done.
    rewrite IH; [|done|].
    + f_equal. rewrite <-insert_union_l, <-insert_union_r; [done|].
      by apply not_elem_of_list_to_map_1.
    + intros k' Hin'. destruct (Hk k') as [? ?]; [by right|].
      split; [done|]. rewrite lookup_insert_ne; [done|]. by intros ->.
Qed.

Lemma bind_defaults_Some sig locals p v :
  locals !! p = Some v → bind_defaults sig locals !! p = Some v.
Proof.
  revert locals. induction sig as [|[q d] sig IH]; intros locals Hp; [done|].
  cbn. apply IH. destruct (locals !! q) eqn:Hq; [done|].
  rewrite lookup_insert_ne; [done|]. intros ->. congruence.
Qed.

Lemma bind_defaults_None sig locals p d :
  NoDup sig.*1 → (p, d) ∈ sig → locals !! p = None →
  bind_defaults sig locals !! p = Some d.
Proof.
  revert locals.
  induction sig as [|[q e] sig IH]; intros locals Hnd Hin Hp.
  - by apply elem_of_nil in Hin.
  - cbn in *. apply NoDup_cons in Hnd as [Hq Hnd].
    apply elem_of_cons in Hin as [[= <- <-]|Hin].
    + apply bind_defaults_Some. rewrite Hp. apply lookup_insert_eq.
    + assert (p ≠ q) as Hne.
      { intros ->. apply Hq. apply list_elem_of_fmap. by exists (q, d). }
      apply IH; [done..|]. destruct (locals !! q); [done|].
      by rewrite lookup_insert_ne.
Qed.

(** What a call binds: positional values to the leading parameters,
    keyword values to the parameters they name, defaults to the rest. *)
Lemma bind_spec sig args kwargs :
  NoDup sig.*1 → (length args ≤ length sig)%nat → NoDup kwargs.*1 →
  (∀ k, k ∈ kwargs.*1 → k ∈ drop (length args) sig.*1) →
  ∃ locals, bind sig args kwargs = Ok locals
    ∧ (∀ i p a, sig.*1 !! i = Some p → args !! i = Some a →
                locals !! p = Some a)
    ∧ (∀ p v, (p, v) ∈ kwargs → locals !! p = Some v)
    ∧ (∀ p d, (p, d) ∈ sig → p ∉ take (length args) sig.*1 →
              p ∉ kwargs.*1 → locals !! p = Some d).
Proof.
  intros Hsig Hlen Hkw Hkeys.
  assert (NoDup (take (length args) sig.*1)
          ∧ (∀ x, x ∈ take (length args) sig.*1 →
                  x ∉ drop (length args) sig.*1)) as [Htake Hdisj].
  { rewrite <-(take_drop (length args) sig.*1) in Hsig.
    apply NoDup_app in Hsig. tauto. }
  assert ((zip sig.*1 args).*1 = take (length args) sig.*1) as Hfst.
  { rewrite <-(zip_with_take_l _ sig.*1 args). apply fst_zip.
    rewrite length_take, length_fmap. lia. }
  unfold bind. rewrite bind_positional_ok by done. cbn.
  rewrite bind_keywords_ok; [|done|]; cycle 1.
  { intros k Hk. split.
    - by apply (subseteq_drop (length args)), Hkeys.
    - rewrite (right_id_L ∅ (∪)). apply not_elem_of_list_to_map_1.
      rewrite Hfst. intros Hin. by apply (Hdisj k Hin), Hkeys. }
  cbn. eexists. split; [done|]. rewrite (right_id_L ∅ (∪)).
  split; [|split].
  - intros i p a Hp Ha. apply bind_defaults_Some.
    assert (list_to_map (M:=frame) (zip sig.*1 args) !! p = Some a) as Hpos.
    { apply elem_of_list_to_map_1; [by rewrite Hfst|].
      apply (list_elem_of_lookup_2 _ i), lookup_zip_with_Some. eauto. }
    rewrite lookup_union_r; [done|].
    apply not_elem_of_list_to_map_1. intros Hin.
    apply (Hdisj p); [|by apply Hkeys].
    rewrite <-Hfst. apply list_elem_of_fmap. exists (p, a). split; [done|].
    by apply elem_of_list_to_map_2.
  - intros p v Hin. apply bind_defaults_Some, lookup_union_Some_l.
    by apply elem_of_list_to_map_1.
  - intros p d Hin Hnpos Hnkw. apply bind_defaults_None; [done..|].
    apply lookup_union_None_2; apply not_elem_of_list_to_map_1; [done|].
    by rewrite Hfst.
Qed.

End Binding.

Lemma bind_defaults_is_Some (sig : signature) (locals : frame) p :
  p ∈ sig.*1 → is_Some (bind_defaults sig locals !! p).
Proof.
  revert locals. induction sig as [|[q d] sig IH]; intros locals Hp.
  - by apply elem_of_nil in Hp.
  - cbn in *. apply elem_of_cons in Hp as [->|Hp]; [|by apply IH].
    destruct (locals !! q) as [v|] eqn:Hq.
    + exists v. by apply bind_defaults_Some.
    + exists d. apply bind_defaults_Some, lookup_insert_eq.
Qed.

(** After a successful binding every parameter has a value. *)
Lemma bind_total (sig : signature) args kwargs (locals : frame) p :
  bind sig args kwargs = Ok locals → p ∈ sig.*1 → is_Some (locals !! p).
Proof.
  unfold bind. intros Hb Hp.
  destruct (bind_positional sig args ∅) as [l1|]; [|done]. cbn in Hb.
  destruct (bind_keywords sig kwargs l1) as [l2|]; [|done]. cbn in Hb.
  injection Hb as <-. by apply bind_defaults_is_Some.
Qed.

(** [ExternalControlParams.__init__] copies its three parameters into the
    attributes of the same names. *)
Lemma ExternalControlParams_copies args kwargs (locals : frame) :
  bind ExternalControlParams_signature args kwargs = Ok locals →
  ∃ self, ExternalControlParams args kwargs = Ok self
    ∧ ∀ p, p ∈ ExternalControlParams_signature.*1 → self !! p = locals !! p.
Proof.
  intros Hb.
  destruct (bind_total _ _ _ _ "exchange_interval" Hb) as [a Ha];
    [cbn; set_solver|].
  destruct (bind_total _ _ _ _ "num_exchange_indivuduals" Hb) as [b Hb'];
    [cbn; set_solver|].
  destruct (bind_total _ _ _ _ "reset_interval" Hb) as [c Hc];
    [cbn; set_solver|].
  unfold ExternalControlParams. rewrite Hb. cbn. unfold load.
  rewrite Ha. cbn. rewrite Hb'. cbn. rewrite Hc. cbn.
  eexists. split; [done|]. intros p Hp. cbn in Hp. unfold setattr.
  repeat (apply elem_of_cons in Hp as [->|Hp]);
    [by rewrite Ha|by rewrite Hb'|by rewrite Hc|by apply elem_of_nil in Hp].
Qed.

(** C4, amended: [ExternalControlParams] takes initial values for its
    three fields positionally, by keyword (under the parameter names
    [exchange_interval], [num_exchange_indivuduals] and [reset_interval])
    or both, and a field given no value takes the default [0].
    [BrkgaParams] takes no initial values: a call with any argument is a
    [TypeError], and [BrkgaParams()] gives every field its default. *)
Theorem params_construction :
  (∀ args kwargs,
     (length args ≤ 3)%nat → NoDup kwargs.*1 →
     (∀ k, k ∈ kwargs.*1 →
           k ∈ drop (length args) ExternalControlParams_signature.*1) →
     ∃ self, ExternalControlParams args kwargs = Ok self
       ∧ (∀ i p a, ExternalControlParams_signature.*1 !! i = Some p →
                   args !! i = Some a → getattr self p = Ok a)
       ∧ (∀ p v, (p, v) ∈ kwargs → getattr self p = Ok v)
       ∧ (∀ p, p ∈ ExternalControlParams_signature.*1 →
               p ∉ take (length args) ExternalControlParams_signature.*1 →
               p ∉ kwargs.*1 → getattr self p = Ok (PyInt 0)))
  ∧ (∀ args kwargs, args ≠ [] ∨ kwargs ≠ [] →
       BrkgaParams args kwargs = Raise TypeError)
  ∧ BrkgaParams [] [] =
      Ok (list_to_map
            [("population_size", PyInt 0);
             ("elite_percentage", PyFloat float_zero);
             ("mutants_percentage", PyFloat float_zero);
             ("num_elite_parents", PyInt 0);
             ("total_parents", PyInt 0);
             ("bias_type", PyEnum CONSTANT);
             ("num_independent_populations", PyInt 0);
             ("pr_number_pairs", PyInt 0);
             ("pr_minimum_distance", PyFloat float_zero);
             ("pr_type", PyEnum DIRECT);
             ("pr_selection", PyEnum BESTSOLUTION);
             ("alpha_block_size", PyFloat float_zero);
             ("pr_percentage", PyFloat float_zero)]).
Proof.
  split; [|split].
  - intros args kwargs Hlen Hkw Hkeys.
    destruct (bind_spec ExternalControlParams_signature args kwargs)
      as (locals & Hb & Hpos & Hkey & Hdef);
      [by apply (bool_decide_unpack _)|done..|].
    destruct (ExternalControlParams_copies _ _ _ Hb) as (self & Hself & Hcopy).
    exists self. split; [done|]. unfold getattr. split; [|split].
    + intros i p a Hp Ha. rewrite Hcopy, (Hpos i p a) by
        (done || by apply (list_elem_of_lookup_2 _ i)). done.
    + intros p v Hin. rewrite Hcopy, (Hkey p v Hin); [done|].
      apply (subseteq_drop (length args)), Hkeys, list_elem_of_fmap.
      by exists (p, v).
    + intros p Hp Hnpos Hnkw. rewrite (Hcopy p Hp).
      rewrite (Hdef p (PyInt 0)); [done| |done..].
      cbn in Hp. repeat (apply elem_of_cons in Hp as [->|Hp]);
        [set_solver..|by apply elem_of_nil in Hp].
  - intros [|a args] [|[k v] kwargs] [H|H]; done.
  - reflexivity.
Qed.

(** ** Instances *)

(** A token that names no variant fails for every strategy enumeration. *)
Lemma not_a_real_name_fails cls :
  resolve caseless cls (TStr (lit "not-a-real-name")) = Raise ValueError.
Proof. by destruct cls. Qed.

Lemma resolve_unknown_name_ValueError_witness :
  (∀ m, m ∈ members Sense →
        upper caseless (name m) ≠ upper caseless (lit "not-a-real-name"))
  ∧ resolve caseless Sense (TStr (lit "not-a-real-name")) = Raise ValueError
  ∧ issubclass ValueError LookupError = false.
Proof.
  assert (∀ m, m ∈ members Sense →
            upper caseless (name m) ≠ upper caseless (lit "not-a-real-name"))
    as Hno.
  { intros m Hm%elem_of_members. destruct m; discriminate. }
  split; [exact Hno|].
  exact (resolve_unknown_name_ValueError caseless Sense _ Hno).
Defined.

(** C1 as stated fails: the token matches no variant of [Sense], and the
    call does not raise an exception of the [LookupError] family. *)
Lemma resolve_unknown_name_not_LookupError :
  (∀ m, m ∈ members Sense →
        upper caseless (name m) ≠ upper caseless (lit "not-a-real-name"))
  ∧ ¬ ∃ e, resolve caseless Sense (TStr (lit "not-a-real-name")) = Raise e
           ∧ issubclass e LookupError = true.
Proof.
  split.
  - intros m Hm%elem_of_members. destruct m; discriminate.
  - intros (e & He & Hsub). rewrite not_a_real_name_fails in He.
    injection He as <-. discriminate.
Qed.

Lemma resolve_case_insensitive_witness :
  LINEAR ∈ members BiasFunction
  ∧ casing_of (name LINEAR) (lit "linear")
  ∧ casing_of (name LINEAR) (lit "Linear")
  ∧ casing_of (name LINEAR) (lit "LINEAR")
  ∧ resolve caseless BiasFunction (TStr (lit "linear")) = Ok LINEAR
  ∧ resolve caseless BiasFunction (TStr (lit "Linear")) = Ok LINEAR
  ∧ resolve caseless BiasFunction (TStr (lit "LINEAR")) = Ok LINEAR.
Proof.
  assert (LINEAR ∈ members BiasFunction) as Hm by (by apply elem_of_members).
  assert (casing_of (name LINEAR) (lit "linear")) as H1
    by (repeat constructor; by right).
  assert (casing_of (name LINEAR) (lit "Linear")) as H2
    by (repeat (constructor; [first [by left | by right]|]); constructor).
  assert (casing_of (name LINEAR) (lit "LINEAR")) as H3
    by (repeat constructor; by left).
  repeat (split; [assumption|]).
  split; [|split].
  - exact (proj2 (resolve_case_insensitive caseless _ _ _ Hm H1)).
  - exact (proj2 (resolve_case_insensitive caseless _ _ _ Hm H2)).
  - exact (proj2 (resolve_case_insensitive caseless _ _ _ Hm H3)).
Defined.

Lemma resolve_member_roundtrip_witness :
  SWAP ∈ members ShakingType
  ∧ resolve caseless ShakingType (TMember SWAP) = Ok SWAP
  ∧ resolve caseless ShakingType (TStr (__str__ SWAP)) = Ok SWAP.
Proof.
  assert (SWAP ∈ members ShakingType) as Hm by (by apply elem_of_members).
  split; [exact Hm|].
  exact (resolve_member_roundtrip caseless ShakingType SWAP Hm).
Defined.

Lemma resolve_by_value_witness :
  LINEAR ∈ members BiasFunction
  ∧ value LINEAR = 3
  ∧ value2member BiasFunction (TInt 3) = Some LINEAR
  ∧ resolve caseless BiasFunction (TInt 3) = Ok LINEAR.
Proof.
  assert (LINEAR ∈ members BiasFunction) as Hm by (by apply elem_of_members).
  split; [exact Hm|]. split; [reflexivity|].
  exact (resolve_by_value caseless BiasFunction LINEAR 3 Hm eq_refl).
Defined.

(** C3 as stated fails: the class has no parameter and no field named
    [num_exchange_individuals]. *)
Lemma ExternalControlParams_individuals_rejected :
  ExternalControlParams []
    [("exchange_interval", PyInt 30);
     ("num_exchange_individuals", PyInt 10);
     ("reset_interval", PyInt 20)] = Raise TypeError
  ∧ (ExternalControlParams [PyInt 10; PyInt 20; PyInt 30] []
       ≫= λ self, getattr self "num_exchange_individuals")
    = Raise AttributeError.
Proof. split; reflexivity. Qed.

(** C4 as stated fails: [BrkgaParams] accepts an initial value neither by
    position nor by name. *)
Lemma BrkgaParams_arguments_rejected :
  BrkgaParams [PyInt 100] [] = Raise TypeError
  ∧ BrkgaParams [] [("population_size", PyInt 100)] = Raise TypeError.
Proof. split; reflexivity. Qed.

Lemma params_construction_witness :
  (length [PyInt 10] ≤ 3)%nat
  ∧ NoDup [("reset_interval", PyInt 30)].*1
  ∧ (∀ k, k ∈ [("reset_interval", PyInt 30)].*1 →
          k ∈ drop (length [PyInt 10]) ExternalControlParams_signature.*1)
  ∧ ∃ self,
      ExternalControlParams [PyInt 10] [("reset_interval", PyInt 30)] = Ok self
      ∧ getattr self "exchange_interval" = Ok (PyInt 10)
      ∧ getattr self "num_exchange_indivuduals" = Ok (PyInt 0)
      ∧ getattr self "reset_interval" = Ok (PyInt 30).
Proof.
  assert (length [PyInt 10] ≤ 3)%nat as H1 by (cbn; lia).
  assert (NoDup [("reset_interval", PyInt 30)].*1) as H2
    by (by apply (bool_decide_unpack _)).
  assert (∀ k, k ∈ [("reset_interval", PyInt 30)].*1 →
            k ∈ drop (length [PyInt 10]) ExternalControlParams_signature.*1)
    as H3.
  { intros k Hk. cbn in *. apply elem_of_cons in Hk as [->|Hk].
    - by apply (bool_decide_unpack _).
    - by apply elem_of_nil in Hk. }
  repeat (split; [assumption|]).
  destruct (proj1 params_construction _ _ H1 H2 H3)
    as (self & Hself & Hpos & Hkey & Hdef).
  exists self. split; [exact Hself|]. split; [|split].
  - by apply (Hpos 0%nat).
  - apply Hdef; by apply (bool_decide_unpack _).
  - apply Hkey. by left.
Defined.

(** * Further properties *)

(** ** More on resolution *)

(** The names are written in upper-case ASCII letters. *)
Lemma upper_name unicode_upper m : upper unicode_upper (name m) = name m.
Proof. by destruct m. Qed.

Lemma name_inj m m' : name m = name m' → m = m'.
Proof. destruct m, m'; intros H; first [reflexivity | discriminate H]. Qed.

Lemma find_elem_of {A} (f : A → bool) (l : list A) x :
  List.find f l = Some x → x ∈ l ∧ f x = true.
Proof. intros [? ?]%find_some. by rewrite list_elem_of_In. Qed.

Lemma find_is_None {A} (f : A → bool) (l : list A) x :
  List.find f l = None → x ∈ l → f x = false.
Proof. intros H Hx. apply (find_none f l H). by apply list_elem_of_In. Qed.

Section ResolutionMore.

Variable unicode_upper : N → list N.

(** What the hook returns is a member of the class whose name matches. *)
Lemma missing_Some cls t m :
  _missing_ unicode_upper cls t = Some m →
  m ∈ members cls
  ∧ upper unicode_upper (name m) = upper unicode_upper (py_str t).
Proof.
  unfold _missing_. intros [Hm Heq]%find_elem_of. split; [done|].
  by apply bool_decide_eq_true in Heq.
Qed.

(** What the hook returns: the member of the class whose upper-cased name
    is the upper-cased [str] of the argument, for every kind of argument;
    as no two names of a class agree up to case, the first match of the loop
    is the only one. *)
Theorem missing_spec cls t m :
  _missing_ unicode_upper cls t = Some m
  ↔ m ∈ members cls
    ∧ upper unicode_upper (name m) = upper unicode_upper (py_str t).
Proof.
  split; [apply missing_Some|]. intros [Hm Heq].
  destruct (_missing_ unicode_upper cls t) as [m'|] eqn:Hfind.
  - apply missing_Some in Hfind as [_ Heq']. f_equal. apply name_inj.
    rewrite <-(upper_name unicode_upper m'), <-(upper_name unicode_upper m).
    congruence.
  - unfold _missing_ in Hfind. apply (find_is_None _ _ m) in Hfind; [|done].
    by apply bool_decide_eq_false in Hfind.
Qed.

(** A call of an enumeration class returns a member of that class or
    raises [ValueError]; it raises nothing else and never returns a member
    of another class. *)
Theorem resolve_outcome cls t :
  (∃ m, resolve unicode_upper cls t = Ok m ∧ m ∈ members cls)
  ∨ resolve unicode_upper cls t = Raise ValueError.
Proof.
  unfold resolve.
  destruct (as_instance cls t) as [m|] eqn:Hi.
  { left. exists m. split; [done|]. apply elem_of_members.
    destruct t as [m'| |]; cbn in Hi; [|done..].
    destruct (decide (cls_of m' = cls)); by simplify_eq. }
  destruct (value2member cls t) as [m|] eqn:Hv.
  { left. exists m. split; [done|].
    destruct t as [| |z]; cbn in Hv; [done..|].
    by apply find_elem_of in Hv as [? _]. }
  destruct (_missing_ unicode_upper cls t) as [r|] eqn:Hm; [|by right].
  apply missing_Some in Hm as [Hr _]. left. exists r.
  apply elem_of_members in Hr as Hc. by rewrite decide_True.
Qed.

End ResolutionMore.

(** *** Decimal spellings *)

Lemma lit_String a s : lit (String a s) = N_of_ascii a :: lit s.
Proof. done. Qed.

Lemma pretty_N_char_below x : (N_of_ascii (pretty_N_char x) < 65)%N.
Proof. unfold pretty_N_char. by repeat case_match. Qed.

Lemma pretty_N_go_below x s :
  Forall (λ c, (c < 65)%N) (lit s) →
  Forall (λ c, (c < 65)%N) (lit (pretty_N_go x s)).
Proof.
  revert s. induction (N.lt_wf_0 x) as [x _ IH]; intros s Hs.
  destruct (decide (x = 0)%N) as [->|Hx]; [by rewrite pretty_N_go_0|].
  rewrite pretty_N_go_step by lia. apply IH.
  - apply N.div_lt; lia.
  - rewrite lit_String. constructor; [apply pretty_N_char_below|done].
Qed.

Lemma pretty_positive_below (p : positive) :
  Forall (λ c, (c < 65)%N) (lit (pretty p)).
Proof.
  unfold pretty, pretty_positive, pretty, pretty_N.
  rewrite decide_False by done. apply pretty_N_go_below. constructor.
Qed.

(** The decimal spelling of an integer holds digits and a sign only: every
    code point lies below the letters. *)
Lemma pretty_Z_below (z : Z) : Forall (λ c, (c < 65)%N) (lit (pretty z)).
Proof.
  destruct z as [|p|p].
  - by repeat constructor.
  - apply pretty_positive_below.
  - change (pretty (Z.neg p)) with (String "-" (pretty p)).
    rewrite lit_String. constructor; [done|apply pretty_positive_below].
Qed.

Lemma name_first m : ∃ c rest, name m = c :: rest ∧ (65 ≤ c)%N.
Proof. destruct m; eexists _, _; (split; [reflexivity|done]). Qed.

Section ResolutionTokens.

Variable unicode_upper : N → list N.

(** [upper] on ASCII code points is [ascii_upper] on each. *)
Lemma upper_ascii s :
  Forall (λ c, (c < 128)%N) s → upper unicode_upper s = ascii_upper <$> s.
Proof.
  induction 1 as [|c s Hc _ IH]; [done|].
  unfold upper in *. cbn. rewrite IH. unfold upper_cp.
  by apply N.ltb_lt in Hc as ->.
Qed.

Lemma upper_below s :
  Forall (λ c, (c < 65)%N) s → upper unicode_upper s = s.
Proof.
  intros Hs. rewrite upper_ascii.
  - induction Hs as [|c s Hc _ IH]; [done|]. cbn. rewrite IH. f_equal.
    unfold ascii_upper.
    assert ((97 <=? c)%N = false) as -> by (apply N.leb_gt; lia). done.
  - eapply Forall_impl; [done|]. cbn. lia.
Qed.

(** The hook finds nothing for an integer: no name is a decimal. *)
Lemma missing_int cls z : _missing_ unicode_upper cls (TInt z) = None.
Proof.
  destruct (_missing_ unicode_upper cls (TInt z)) as [r|] eqn:Hm; [|done].
  apply missing_Some in Hm as [_ Heq].
  change (py_str (TInt z)) with (lit (pretty z)) in Heq.
  rewrite upper_name, (upper_below _ (pretty_Z_below z)) in Heq.
  destruct (name_first r) as (c & rest & Hr & Hc). rewrite Hr in Heq.
  pose proof (pretty_Z_below z) as Hz. rewrite <-Heq in Hz.
  apply Forall_cons in Hz as [Hlt _]. lia.
Qed.

Lemma value2member_value m :
  value2member (cls_of m) (TInt (value m)) = Some m.
Proof. by destruct m. Qed.

(** An integer that is the value of no variant of the class fails with
    [ValueError]: after the value lookup misses, the hook compares the
    decimal spelling with the names and finds nothing. *)
Theorem resolve_int_unknown cls z :
  (∀ m, m ∈ members cls → value m ≠ z) →
  resolve unicode_upper cls (TInt z) = Raise ValueError.
Proof.
  intros Hno. unfold resolve. cbn [as_instance value2member].
  rewrite find_all_false, missing_int; [done|].
  intros m Hm. apply bool_decide_eq_false. by apply Hno.
Qed.

(** An integer resolves to a member exactly when it is that member's
    value: integers are never matched through their spelling. *)
Theorem resolve_int_spec cls z m :
  resolve unicode_upper cls (TInt z) = Ok m ↔ m ∈ members cls ∧ value m = z.
Proof.
  unfold resolve. cbn [as_instance]. split.
  - destruct (value2member cls (TInt z)) as [m'|] eqn:Hv.
    + intros [= ->]. cbn in Hv. apply find_elem_of in Hv as [Hm Hv].
      by apply bool_decide_eq_true in Hv.
    + by rewrite missing_int.
  - intros [<-%elem_of_members <-]. by rewrite value2member_value.
Qed.

(** A member of another enumeration is not converted: the call fails with
    [ValueError], because no two enumerations share a variant name. *)
Theorem resolve_foreign_member cls m :
  cls_of m ≠ cls → resolve unicode_upper cls (TMember m) = Raise ValueError.
Proof.
  intros Hne. unfold resolve. cbn [as_instance value2member].
  rewrite decide_False by done.
  destruct (_missing_ unicode_upper cls (TMember m)) as [r|] eqn:Hm; [|done].
  apply missing_Some in Hm as [Hr Heq].
  change (py_str (TMember m)) with (name m) in Heq.
  rewrite !upper_name in Heq. apply name_inj in Heq as ->.
  by apply elem_of_members in Hr.
Qed.

Lemma casing_of_upper_inv s : casing_of (ascii_upper <$> s) s.
Proof.
  induction s as [|c s IH]; constructor; [|done].
  unfold same_letter.
  destruct (decide (97 ≤ c ∧ c ≤ 122)%N) as [[H1 H2]|Hc].
  - right. unfold ascii_upper, ascii_lower.
    assert ((97 <=? c)%N = true) as -> by (apply N.leb_le; lia).
    assert ((c <=? 122)%N = true) as -> by (apply N.leb_le; lia).
    cbn [andb].
    assert ((65 <=? c - 32)%N = true) as -> by (apply N.leb_le; lia).
    assert ((c - 32 <=? 90)%N = true) as -> by (apply N.leb_le; lia).
    cbn [andb]. lia.
  - left. rewrite ascii_upper_idemp. unfold ascii_upper.
    destruct (97 <=? c)%N eqn:H1, (c <=? 122)%N eqn:H2; cbn [andb]; try done.
    apply N.leb_le in H1, H2. lia.
Qed.

(** An ASCII string resolves to a member only if it is the member's name
    up to the case of its letters: no abbreviation, no surrounding blanks,
    no other spelling is accepted. *)
Theorem resolve_ascii_only_casing cls s m :
  Forall (λ c, (c < 128)%N) s →
  resolve unicode_upper cls (TStr s) = Ok m →
  casing_of (name m) s.
Proof.
  intros Hs. rewrite resolve_str.
  destruct (_missing_ unicode_upper cls (TStr s)) as [r|] eqn:Hm; [|done].
  apply missing_Some in Hm as [Hr Heq]. apply elem_of_members in Hr.
  rewrite decide_True by done. intros [= <-].
  change (py_str (TStr s)) with s in Heq.
  rewrite upper_name, upper_ascii in Heq by done.
  rewrite Heq. apply casing_of_upper_inv.
Qed.

(** A string names a variant of at most one enumeration. *)
Theorem resolve_str_one_enumeration cls1 cls2 s m1 m2 :
  resolve unicode_upper cls1 (TStr s) = Ok m1 →
  resolve unicode_upper cls2 (TStr s) = Ok m2 →
  cls1 = cls2 ∧ m1 = m2.
Proof.
  rewrite !resolve_str.
  destruct (_missing_ unicode_upper cls1 (TStr s)) as [r1|] eqn:H1; [|done].
  destruct (_missing_ unicode_upper cls2 (TStr s)) as [r2|] eqn:H2; [|done].
  apply missing_Some in H1 as [Hr1 He1], H2 as [Hr2 He2].
  apply elem_of_members in Hr1, Hr2. rewrite !decide_True by done.
  intros [= <-] [= <-].
  assert (r1 = r2) as ->; [|by split; congruence].
  apply name_inj. rewrite <-(upper_name unicode_upper r1).
  rewrite <-(upper_name unicode_upper r2). congruence.
Qed.

End ResolutionTokens.

(** ** More on the outcome flag *)

(** [TOO_HOMOGENEOUS] is neutral for [|] and [BEST_IMPROVEMENT] absorbs:
    a rollup started at the former takes on the first outcome, and one
    that reached the latter keeps it. *)
Theorem combine_neutral_absorbing (a : PathRelinkingResult) :
  combine TOO_HOMOGENEOUS a = Some a
  ∧ combine a TOO_HOMOGENEOUS = Some a
  ∧ combine BEST_IMPROVEMENT a = Some BEST_IMPROVEMENT
  ∧ combine a BEST_IMPROVEMENT = Some BEST_IMPROVEMENT.
Proof. by destruct a. Qed.

(** [|] is commutative and idempotent on the four outcomes. *)
Theorem combine_comm_idemp (a b : PathRelinkingResult) :
  combine a b = combine b a ∧ combine a a = Some a.
Proof. by destruct a, b. Qed.

(** [|] is associative: a rollup does not depend on how the outcomes are
    grouped. *)
Theorem combine_assoc (a b c : PathRelinkingResult) :
  (ab ← combine a b; combine ab c) = (bc ← combine b c; combine a bc).
Proof. by destruct a, b, c. Qed.


(** ** More on argument binding *)

Lemma bind_positional_surplus (sig : signature) args (locals : frame) :
  (length sig < length args)%nat →
  bind_positional sig args locals = Raise TypeError.
Proof.
  revert sig locals. induction args as [|a args IH]; intros sig locals Hlen.
  - cbn in Hlen. lia.
  - destruct sig as [|[p d] sig]; cbn in *; [done|]. apply IH. lia.
Qed.

Lemma bind_positional_Raise (sig : signature) args (locals : frame) e :
  bind_positional sig args locals = Raise e → e = TypeError.
Proof.
  revert sig locals. induction args as [|a args IH]; intros sig locals.
  - by destruct sig.
  - destruct sig as [|[p d] sig]; cbn; [congruence|apply IH].
Qed.

Lemma bind_positional_Ok (sig : signature) args (locals locals' : frame) :
  bind_positional sig args locals = Ok locals' →
  (length args ≤ length sig)%nat.
Proof.
  intros H. destruct (decide (length args ≤ length sig)%nat); [done|].
  rewrite bind_positional_surplus in H by lia. done.
Qed.

Lemma bind_keywords_Raise (sig : signature) kwargs (locals : frame) e :
  bind_keywords sig kwargs locals = Raise e → e = TypeError.
Proof.
  revert locals. induction kwargs as [|[k v] kwargs IH]; intros locals; [done|].
  cbn. case_bool_decide; [|congruence].
  destruct (locals !! k); [congruence|apply IH].
Qed.

Lemma bind_keywords_Ok (sig : signature) kwargs (locals locals' : frame) :
  bind_keywords sig kwargs locals = Ok locals' →
  NoDup kwargs.*1 ∧ ∀ k, k ∈ kwargs.*1 → k ∈ sig.*1 ∧ locals !! k = None.
Proof.
  revert locals. induction kwargs as [|[k v] kwargs IH]; intros locals.
  - intros _. split; [constructor|]. intros k Hk. by apply elem_of_nil in Hk.
  - cbn. case_bool_decide as Hin; [|done].
    destruct (locals !! k) eqn:Hfree; [done|].
    intros [Hnd Hk]%IH. split.
    + apply NoDup_cons. split; [|done]. intros Hdup.
      destruct (Hk k Hdup) as [_ Hl]. by rewrite lookup_insert_eq in Hl.
    + intros k' [->|Hk']%elem_of_cons; [done|].
      destruct (Hk k' Hk') as [? Hl]. split; [done|].
      by apply lookup_insert_None in Hl as [? _].
Qed.

(** The order of the keyword arguments does not matter. *)
Lemma bind_keywords_Permutation (sig : signature) kwargs kwargs'
    (locals : frame) :
  kwargs ≡ₚ kwargs' →
  bind_keywords sig kwargs locals = bind_keywords sig kwargs' locals.
Proof.
  intros Hp.
  assert (∀ l1 l2 r, l1 ≡ₚ l2 → bind_keywords sig l1 locals = Ok r →
            bind_keywords sig l2 locals = Ok r) as Hok.
  { intros l1 l2 r Hl H. pose proof H as [Hnd Hk]%bind_keywords_Ok.
    rewrite bind_keywords_ok in H by done. injection H as <-.
    rewrite bind_keywords_ok.
    - by rewrite (list_to_map_proper l1 l2).
    - by rewrite <-Hl.
    - intros k Hk'. apply Hk. by rewrite Hl. }
  destruct (bind_keywords sig kwargs locals) as [r|e] eqn:H1.
  { symmetry. by apply (Hok kwargs kwargs'). }
  destruct (bind_keywords sig kwargs' locals) as [r|e'] eqn:H2.
  { apply (Hok kwargs' kwargs) in H2; [congruence|done]. }
  apply bind_keywords_Raise in H1, H2. congruence.
Qed.

(** When a binding succeeds. *)
Lemma bind_Ok_iff (sig : signature) args kwargs :
  NoDup sig.*1 →
  (∃ locals, bind sig args kwargs = Ok locals)
  ↔ (length args ≤ length sig)%nat
    ∧ NoDup kwargs.*1
    ∧ ∀ k, k ∈ kwargs.*1 → k ∈ drop (length args) sig.*1.
Proof.
  intros Hsig. split.
  - intros [locals Hb]. unfold bind in Hb.
    destruct (bind_positional sig args ∅) as [l1|] eqn:H1; [|done].
    apply bind_positional_Ok in H1 as Hlen.
    rewrite bind_positional_ok in H1 by done. injection H1 as <-.
    cbn in Hb.
    destruct (bind_keywords sig kwargs _) as [l2|] eqn:H2; [|done].
    apply bind_keywords_Ok in H2 as [Hnd Hk].
    split; [done|]. split; [done|]. intros k Hin.
    destruct (Hk k Hin) as [Hs Hfree].
    rewrite (right_id_L ∅ (∪)) in Hfree.
    apply not_elem_of_list_to_map_2 in Hfree.
    rewrite <-(take_drop (length args) sig.*1) in Hs.
    apply elem_of_app in Hs as [Hs|Hs]; [|done].
    destruct Hfree. rewrite <-(zip_with_take_l _ sig.*1 args), fst_zip; [done|].
    rewrite length_take, length_fmap. lia.
  - intros (Hlen & Hnd & Hk).
    destruct (bind_spec sig args kwargs) as (locals & Hb & _); eauto.
Qed.

Lemma bind_Raise (sig : signature) args kwargs e :
  bind sig args kwargs = Raise e → e = TypeError.
Proof.
  unfold bind.
  destruct (bind_positional sig args ∅) as [l1|e1] eqn:H1; cbn.
  - destruct (bind_keywords sig kwargs l1) as [l2|e2] eqn:H2; cbn; [done|].
    intros [= <-]. by apply bind_keywords_Raise in H2.
  - intros [= <-]. by apply bind_positional_Raise in H1.
Qed.

(** ** More on ExternalControlParams *)

(** A call succeeds exactly when it passes at most three positional values
    and its keywords are pairwise distinct names of parameters that got no
    positional value. *)
Theorem ExternalControlParams_succeeds_iff args kwargs :
  (∃ self, ExternalControlParams args kwargs = Ok self)
  ↔ (length args ≤ 3)%nat
    ∧ NoDup kwargs.*1
    ∧ ∀ k, k ∈ kwargs.*1 →
           k ∈ drop (length args) ExternalControlParams_signature.*1.
Proof.
  assert (NoDup ExternalControlParams_signature.*1) as Hsig
    by by apply (bool_decide_unpack _).
  rewrite <-(bind_Ok_iff ExternalControlParams_signature args kwargs Hsig).
  split.
  - intros [self Hself]. unfold ExternalControlParams in Hself.
    destruct (bind _ args kwargs) as [locals|]; [by exists locals|done].
  - intros [locals Hb].
    destruct (ExternalControlParams_copies _ _ _ Hb) as (self & Hself & _).
    by exists self.
Qed.

(** A call that fails raises [TypeError], whatever is wrong with its
    arguments: too many of them, an unknown keyword, or two values for one
    parameter. *)
Theorem ExternalControlParams_raises_TypeError args kwargs e :
  ExternalControlParams args kwargs = Raise e → e = TypeError.
Proof.
  intros H.
  destruct (bind ExternalControlParams_signature args kwargs)
    as [locals|e'] eqn:Hb.
  - destruct (ExternalControlParams_copies _ _ _ Hb) as (self & Hself & _).
    congruence.
  - unfold ExternalControlParams in H. rewrite Hb in H. injection H as <-.
    by apply bind_Raise in Hb.
Qed.



(** The keyword arguments may come in any order: the outcome of the call,
    instance or error, is the same. *)
Theorem ExternalControlParams_keyword_order args kwargs kwargs' :
  kwargs ≡ₚ kwargs' →
  ExternalControlParams args kwargs = ExternalControlParams args kwargs'.
Proof.
  intros Hp. unfold ExternalControlParams, bind.
  destruct (bind_positional _ args ∅) as [l1|]; [cbn|done].
  by rewrite (bind_keywords_Permutation _ kwargs kwargs').
Qed.

(** ** Further instances *)

Lemma resolve_int_unknown_witness :
  (∀ m, m ∈ members BiasFunction → value m ≠ 7)
  ∧ resolve caseless BiasFunction (TInt 7) = Raise ValueError.
Proof.
  assert (∀ m, m ∈ members BiasFunction → value m ≠ 7) as Hno.
  { intros m Hm%elem_of_members. destruct m; discriminate. }
  split; [exact Hno|].
  exact (resolve_int_unknown caseless BiasFunction 7 Hno).
Defined.

Lemma resolve_foreign_member_witness :
  cls_of MINIMIZE ≠ PathRelinkingType
  ∧ resolve caseless PathRelinkingType (TMember MINIMIZE) = Raise ValueError.
Proof.
  assert (cls_of MINIMIZE ≠ PathRelinkingType) as Hne by discriminate.
  split; [exact Hne|].
  exact (resolve_foreign_member caseless PathRelinkingType MINIMIZE Hne).
Defined.

Lemma resolve_ascii_only_casing_witness :
  Forall (λ c, (c < 128)%N) (lit "sWaP")
  ∧ resolve caseless ShakingType (TStr (lit "sWaP")) = Ok SWAP
  ∧ casing_of (name SWAP) (lit "sWaP").
Proof.
  assert (Forall (λ c, (c < 128)%N) (lit "sWaP")) as Hs
    by (repeat constructor).
  assert (resolve caseless ShakingType (TStr (lit "sWaP")) = Ok SWAP) as Hr
    by reflexivity.
  split; [exact Hs|]. split; [exact Hr|].
  exact (resolve_ascii_only_casing caseless ShakingType _ SWAP Hs Hr).
Defined.

Lemma resolve_str_one_enumeration_witness :
  resolve caseless BiasFunction (TStr (lit "cubic")) = Ok CUBIC
  ∧ BiasFunction = BiasFunction ∧ CUBIC = CUBIC.
Proof.
  assert (resolve caseless BiasFunction (TStr (lit "cubic")) = Ok CUBIC)
    as Hr by reflexivity.
  split; [exact Hr|].
  exact (resolve_str_one_enumeration caseless _ _ _ _ _ Hr Hr).
Defined.

Lemma ExternalControlParams_raises_TypeError_witness :
  ExternalControlParams [PyInt 1; PyInt 2; PyInt 3; PyInt 4] []
  = Raise TypeError
  ∧ TypeError = TypeError.
Proof.
  assert (ExternalControlParams [PyInt 1; PyInt 2; PyInt 3; PyInt 4] []
          = Raise TypeError) as H by reflexivity.
  split; [exact H|].
  exact (ExternalControlParams_raises_TypeError _ _ _ H).
Defined.


Lemma ExternalControlParams_keyword_order_witness :
  [("reset_interval", PyInt 5); ("exchange_interval", PyInt 7)]
    ≡ₚ [("exchange_interval", PyInt 7); ("reset_interval", PyInt 5)]
  ∧ ExternalControlParams []
      [("reset_interval", PyInt 5); ("exchange_interval", PyInt 7)]
    = ExternalControlParams []
        [("exchange_interval", PyInt 7); ("reset_interval", PyInt 5)].
Proof.
  assert ([("reset_interval", PyInt 5); ("exchange_interval", PyInt 7)]
            ≡ₚ [("exchange_interval", PyInt 7); ("reset_interval", PyInt 5)])
    as Hp by apply perm_swap.
  split; [exact Hp|].
  exact (ExternalControlParams_keyword_order [] _ _ Hp).
Defined.
